(** * Controlbox object framework: capability flags, containers, persisted
      addresses and the read-only system-info block.

    A shallow embedding of [controlbox/src/lib/Values.h] and
    [app/cbox/blox/SysInfoBlock.h].  Machine integers are [Z] with the
    wrap-around of their C++ type written out; object pointers are optional
    heap locations ([None] is [NULL]); the virtual methods of the container
    classes thread the heap explicitly. *)

From stdpp Require Import base numbers option list gmap strings.

Local Open Scope Z_scope.

(** ** Machine integers *)

(** [uint8_t]: conversion keeps the low eight bits. *)
Definition to_uint8 (z : Z) : Z := z mod 256.

(** [int8_t]: two's complement on eight bits. *)
Definition to_int8 (z : Z) : Z := (z + 128) mod 256 - 128.

(** [typedef int8_t container_id;] *)
Definition container_id := Z.

(** [const container_id INVALID_ID = (container_id)(-1);] *)
Definition INVALID_ID : container_id := to_int8 (-1).

(** [typedef uint8_t object_flags_t;] *)
Definition object_flags_t := Z.

Definition MAX_CONTAINER_DEPTH : Z := to_uint8 3.
Definition MAX_CONTAINER_ID : container_id := to_int8 127.

(** ** Capability flags *)

Module ObjectFlags.
Definition Object : Z := 0.
Definition Value : Z := 4.
Definition Container : Z := 8.
Definition WritableFlag : Z := 1.
Definition hasStateFlag : Z := 2.
Definition OpenContainerFlag : Z := 1.
Definition NotLogged : Z := 16.
Definition StaticlyAllocated : Z := 32.
End ObjectFlags.

(** The [objectFlags()] override of each class that has one; the result is
    converted to the return type [object_flags_t]. *)
Definition Object_objectFlags : object_flags_t :=
  to_uint8 ObjectFlags.Object.

Definition Container_objectFlags : object_flags_t :=
  to_uint8 (Z.lor Object_objectFlags ObjectFlags.Container).

Definition OpenContainer_objectFlags : object_flags_t :=
  to_uint8 (Z.lor Container_objectFlags ObjectFlags.OpenContainerFlag).

Definition Value_objectFlags : object_flags_t :=
  to_uint8 (Z.lor Object_objectFlags ObjectFlags.Value).

Definition WritableValue_objectFlags : object_flags_t :=
  to_uint8 (Z.lor Value_objectFlags ObjectFlags.WritableFlag).

(** The classes declared in [Values.h] and their direct base class. *)
Inductive Class : Set :=
  | CObject
  | CContainer
  | CFactoryContainer
  | COpenContainer
  | CValue
  | CWritableValue
  | CEepromAwareValue
  | CEepromAwareWritableValue.

Definition base (c : Class) : option Class :=
  match c with
  | CObject => None
  | CContainer => Some CObject
  | CFactoryContainer => Some CContainer
  | COpenContainer => Some CContainer
  | CValue => Some CObject
  | CWritableValue => Some CValue
  | CEepromAwareValue => Some CValue
  | CEepromAwareWritableValue => Some CWritableValue
  end.

(** Virtual dispatch of [objectFlags()]: a class without an override of its
    own runs the one it inherits. *)
Definition class_objectFlags (c : Class) : object_flags_t :=
  match c with
  | CObject => Object_objectFlags
  | CContainer => Container_objectFlags
  | CFactoryContainer => Container_objectFlags
  | COpenContainer => OpenContainer_objectFlags
  | CValue => Value_objectFlags
  | CWritableValue => WritableValue_objectFlags
  | CEepromAwareValue => Value_objectFlags
  | CEepromAwareWritableValue => WritableValue_objectFlags
  end.

(** The bits a class adds in its own [objectFlags()] override; none when it
    has no override. *)
Definition own_bits (c : Class) : Z :=
  match c with
  | CContainer => ObjectFlags.Container
  | COpenContainer => ObjectFlags.OpenContainerFlag
  | CValue => ObjectFlags.Value
  | CWritableValue => ObjectFlags.WritableFlag
  | _ => 0
  end.

Definition Class_eqb (a b : Class) : bool :=
  match a, b with
  | CObject, CObject | CContainer, CContainer
  | CFactoryContainer, CFactoryContainer | COpenContainer, COpenContainer
  | CValue, CValue | CWritableValue, CWritableValue
  | CEepromAwareValue, CEepromAwareValue
  | CEepromAwareWritableValue, CEepromAwareWritableValue => true
  | _, _ => false
  end.

(** [implements c i]: an object of class [c] can be used through the
    interface of class [i] ([c] is [i] or derives from it).  The hierarchy of
    [Values.h] is at most four classes deep. *)
Fixpoint implements_upto (n : nat) (c i : Class) : bool :=
  Class_eqb c i ||
  match n, base c with
  | S n', Some b => implements_upto n' b i
  | _, _ => false
  end.

Definition implements (c i : Class) : bool := implements_upto 4 c i.

(** ** Objects and the heap *)

(** An object pointer is a heap location or [NULL].  A location names one
    allocation, that is one object lifetime: [new_object] never hands out a
    location twice, so a pointer to a deleted object dangles for ever. *)
Definition loc := nat.
Definition ObjectPtr := option loc.
Definition NULL : ObjectPtr := None.

(** The dynamic type of an object, as far as the container protocol sees it.
    [fl] is what the object's (virtual, freely overridable) [objectFlags()]
    computes before conversion to [object_flags_t].

    - [PlainObject]: any object that does not override the container methods.
    - [BaseContainer]: [Container] (or [OpenContainer]) with the method bodies
      of [Values.h].
    - [ResidentContainer]: a container that keeps installed objects in slots
      (its [item()] and [size()] are modelled from the specification).
    - [FactoryContainer]: the class of [Values.h], whose [returnItem] deletes
      the item; slot [i] holds what [item(i)] constructs, if anything (its
      [item()] and [size()] are modelled from the specification). *)
#[warnings="-register-all"]
Inductive Object : Type :=
  | PlainObject (fl : Z)
  | BaseContainer (fl : Z)
  | ResidentContainer (fl : Z) (slots : list ObjectPtr)
  | FactoryContainer (fl : Z) (recipes : list (option Object)).

Record Heap : Type := mkHeap {
  live : gmap loc Object;
  next : loc
}.

(** Every live location was handed out by an earlier allocation. *)
Definition heap_wf (h : Heap) : Prop :=
  ∀ l o, live h !! l = Some o → (l < next h)%nat.

Definition deref (h : Heap) (p : ObjectPtr) : option Object :=
  match p with
  | Some l => live h !! l
  | None => None
  end.

(** Heap-threading computations. *)
Definition M (A : Type) : Type := Heap → A * Heap.

Definition ret {A} (a : A) : M A := λ h, (a, h).

Definition bind {A B} (m : M A) (k : A → M B) : M B :=
  λ h, let (a, h') := m h in k a h'.

Notation "x ←ₘ m ; k" := (bind m (λ x, k))
  (at level 100, m at next level, right associativity).
Notation "m ;;ₘ k" := (bind m (λ _, k))
  (at level 100, right associativity).

(** [#define new_object(x) new x] *)
Definition new_object (init : Object) : M ObjectPtr :=
  λ h, (Some (next h),
        {| live := <[next h := init]> (live h); next := S (next h) |}).

(** [#define delete_object(x) delete (x)]; deleting [NULL] does nothing. *)
Definition delete_object (x : ObjectPtr) : M unit :=
  λ h, match x with
       | Some l => (tt, {| live := delete l (live h); next := next h |})
       | None => (tt, h)
       end.

(** [o->objectFlags()] *)
Definition objectFlags (o : Object) : object_flags_t :=
  match o with
  | PlainObject fl | BaseContainer fl
  | ResidentContainer fl _ | FactoryContainer fl _ => to_uint8 fl
  end.

(** ** Flag predicates; [None] is the [NULL] pointer *)

Definition hasFlags (value flags : Z) : bool :=
  Z.land (to_uint8 value) (to_uint8 flags) =? to_uint8 flags.

Definition isContainer (o : option Object) : bool :=
  match o with
  | None => false
  | Some x => hasFlags (objectFlags x) ObjectFlags.Container
  end.

Definition isOpenContainer (o : option Object) : bool :=
  match o with
  | None => false
  | Some x =>
      hasFlags (objectFlags x)
        (Z.lor ObjectFlags.Container ObjectFlags.OpenContainerFlag)
  end.

Definition isValue (o : option Object) : bool :=
  match o with
  | None => false
  | Some x => hasFlags (objectFlags x) ObjectFlags.Value
  end.

Definition isLoggedValue (o : option Object) : bool :=
  match o with
  | None => false
  | Some x =>
      Z.land (objectFlags x) (Z.lor ObjectFlags.Value ObjectFlags.NotLogged)
      =? ObjectFlags.Value
  end.

Definition isDynamicallyAllocated (o : option Object) : bool :=
  match o with
  | None => false
  | Some x => Z.land (objectFlags x) ObjectFlags.StaticlyAllocated =? 0
  end.

Definition isWritable (o : option Object) : bool :=
  match o with
  | None => false
  | Some x => hasFlags (objectFlags x) ObjectFlags.WritableFlag
  end.

(** What the specification calls "the [flag] bit is set in [value]", for a
    single-bit [flag]. *)
Definition bit_set (flag value : Z) : bool := Z.testbit value (Z.log2 flag).

(** The test the predicates do not use: some required bit is present. *)
Definition anyFlags (value flags : Z) : bool :=
  negb (Z.land (to_uint8 value) (to_uint8 flags) =? 0).

(** ** The container protocol *)

(** A valid id of a container: [0 <= id < size()]. *)
Definition valid_id (id size : container_id) : bool :=
  (0 <=? id) && (id <? size).

(** [Container::item], [Container::returnItem] and [Container::size] as
    written in [Values.h]. *)
Definition Container_item (id : container_id) : M ObjectPtr := ret NULL.

Definition Container_returnItem (id : container_id) (item : ObjectPtr)
  : M unit := ret tt.

Definition Container_size : container_id := 0.

(** [FactoryContainer::returnItem] as written in [Values.h]. *)
Definition FactoryContainer_returnItem (id : container_id) (item : ObjectPtr)
  : M unit := delete_object item.

(** Modelled from the spec: the [item()] and [size()] overrides of a container
    that keeps its objects resident are not in [Values.h].  "[item(id)]
    returns the object at [id], or null if out of range or empty"; "[size()]:
    exclusive upper bound on valid ids". *)
Definition ResidentContainer_size (slots : list ObjectPtr) : container_id :=
  Z.of_nat (length slots).

(** Modelled from the spec: [item()] of a resident container, null when the
    id is out of range or the slot is empty. *)
Definition ResidentContainer_item (slots : list ObjectPtr) (id : container_id)
  : M ObjectPtr :=
  if valid_id id (ResidentContainer_size slots)
  then ret (default NULL (slots !! Z.to_nat id))
  else ret NULL.

(** Modelled from the spec: the [item()] and [size()] overrides of a concrete
    factory container are not in [Values.h].  Its "[item()] implementation
    must construct an object fresh on each call"; out of range or for an
    empty slot it returns null like every container. *)
Definition FactoryContainer_size (recipes : list (option Object))
  : container_id := Z.of_nat (length recipes).

(** Modelled from the spec: [item()] of a concrete factory container, one
    [new_object] per successful call. *)
Definition FactoryContainer_item (recipes : list (option Object))
    (id : container_id) : M ObjectPtr :=
  if valid_id id (FactoryContainer_size recipes)
  then match recipes !! Z.to_nat id with
       | Some (Some init) => new_object init
       | _ => ret NULL
       end
  else ret NULL.

(** Virtual dispatch on the dynamic type of the object [c] points to.  A
    pointer that is null, dangling or not to a container runs the bodies of
    the base class. *)
Definition size (h : Heap) (c : ObjectPtr) : container_id :=
  match deref h c with
  | Some (ResidentContainer _ slots) => ResidentContainer_size slots
  | Some (FactoryContainer _ recipes) => FactoryContainer_size recipes
  | _ => Container_size
  end.

Definition item (c : ObjectPtr) (id : container_id) : M ObjectPtr :=
  λ h, match deref h c with
       | Some (ResidentContainer _ slots) => ResidentContainer_item slots id h
       | Some (FactoryContainer _ recipes) => FactoryContainer_item recipes id h
       | _ => Container_item id h
       end.

Definition returnItem (c : ObjectPtr) (id : container_id) (it : ObjectPtr)
  : M unit :=
  λ h, match deref h c with
       | Some (FactoryContainer _ _) => FactoryContainer_returnItem id it h
       | _ => Container_returnItem id it h
       end.

(** One borrow cycle: [item(id)] followed immediately by
    [returnItem(id, result)]. *)
Definition borrow_cycle (c : ObjectPtr) (id : container_id) : M ObjectPtr :=
  it ←ₘ item c id;
  returnItem c id it ;;ₘ
  ret it.

(** The object a call handed back, looked up in the heap the call left. *)
Definition pointee (r : ObjectPtr * Heap) : option Object := deref r.2 r.1.

(** ** Id-chain resolution *)

(** Modelled from the spec: the body of [lookupObject] is not in [Values.h],
    which only declares it.  "At each level, call [item(next_id)] on the
    current container; if the chain has more ids remaining, the retrieved
    object must itself satisfy [isContainer], else resolution fails; recurse
    into it as the new current container."  Intermediate containers are
    returned once the walk below them is over; the terminal object stays
    borrowed.  Here the id chain is already decoded from the stream. *)
Fixpoint lookupFrom (current : ObjectPtr) (chain : list container_id)
  : M ObjectPtr :=
  match chain with
  | [] => ret current
  | id :: rest =>
      λ h,
        if isContainer (deref h current)
        then (o ←ₘ item current id;
              match rest with
              | [] => ret o
              | _ => r ←ₘ lookupFrom o rest;
                     returnItem current id o ;;ₘ
                     ret r
              end) h
        else (NULL, h)
  end.

(** Modelled from the spec: "depth is bounded by [MAX_CONTAINER_DEPTH];
    exceeding it [is a] resolution failure, reported as a null object". *)
Definition lookupObject (current : ObjectPtr) (chain : list container_id)
  : M ObjectPtr :=
  if MAX_CONTAINER_DEPTH <? Z.of_nat (length chain)
  then ret NULL
  else lookupFrom current chain.

(** The three failures the specification lists, located along the walk:
    a non-container (or nothing at all) where ids remain, or an id outside
    the current container's range. *)
Inductive ResolutionFails : Heap → ObjectPtr → list container_id → Prop :=
  | fails_not_container h cur id rest :
      isContainer (deref h cur) = false →
      ResolutionFails h cur (id :: rest)
  | fails_out_of_range h cur id rest :
      isContainer (deref h cur) = true →
      valid_id id (size h cur) = false →
      ResolutionFails h cur (id :: rest)
  | fails_below h cur id rest o h' :
      isContainer (deref h cur) = true →
      valid_id id (size h cur) = true →
      item cur id h = (o, h') →
      ResolutionFails h' o rest →
      ResolutionFails h cur (id :: rest).

(** [Addresses h root chain p]: every id of [chain] is valid in the container
    it indexes, and following them from [root] ends at pointer [p]. *)
Inductive Addresses : Heap → ObjectPtr → list container_id → ObjectPtr → Prop :=
  | addresses_here h cur : Addresses h cur [] cur
  | addresses_below h cur id rest o h' p :
      isContainer (deref h cur) = true →
      valid_id id (size h cur) = true →
      item cur id h = (o, h') →
      Addresses h' o rest p →
      Addresses h cur (id :: rest) p.

(** ** Persisted addresses *)

(** [eptr_t] is declared in a header that is not part of these sources; it is
    taken to be an unsigned integer of [eptr_bits] bits, and conversion to it
    wraps. *)
Definition to_eptr (eptr_bits : Z) (z : Z) : Z := z mod 2 ^ eptr_bits.

(** Modelled from the spec: [EepromAccess], the non-volatile storage accessor,
    "random-access single-byte read by absolute offset".  The store is a cell
    per offset; [readByte] and [writeByte] take the offset as an [eptr_t] and
    the byte as a [uint8_t]. *)
Record EepromAccess : Type := mkEeprom {
  eptr_bits : Z;
  cells : Z → Z
}.

(** Modelled from the spec: [EepromAccess::readByte], a single-byte read by
    absolute offset. *)
Definition readByte (ea : EepromAccess) (offset : Z) : Z :=
  to_uint8 (cells ea (to_eptr (eptr_bits ea) offset)).

(** Modelled from the spec: [EepromAccess::writeByte], which stores one byte
    at an offset and leaves the other cells alone. *)
Definition writeByte (ea : EepromAccess) (offset value : Z) : EepromAccess :=
  {| eptr_bits := eptr_bits ea;
     cells := λ x, if x =? to_eptr (eptr_bits ea) offset
                   then to_uint8 value else cells ea x |}.

(** What a caller can do with an eeprom-aware value.  [address] is private
    and [rehydrated] is [final]: the methods a derived class adds or overrides
    ([prepare], [update], [readTo], [writeFrom], ...) act on the derived
    class's own state [D] only. *)
Inductive Call (D : Type) : Type :=
  | call_rehydrated (_address : Z)
  | call_eeprom_offset
  | call_eepromSize (ea : EepromAccess)
  | call_objectFlags
  | call_derived (method : D → D).

Arguments call_rehydrated {D} _address.
Arguments call_eeprom_offset {D}.
Arguments call_eepromSize {D} ea.
Arguments call_objectFlags {D}.
Arguments call_derived {D} method.


Module EepromAwareValue.

Record t (D : Type) : Type := mk {
  address : Z;
  derived : D
}.
Arguments mk {D} address derived.
Arguments address {D} _.
Arguments derived {D} _.

(** [eptr_t address = -1;] *)
Definition construct {D} (bits : Z) (d : D) : t D :=
  {| address := to_eptr bits (-1); derived := d |}.

Definition rehydrated {D} (_address : Z) (self : t D) : t D :=
  {| address := _address; derived := derived self |}.

Definition eeprom_offset {D} (self : t D) : Z := address self.

Definition eepromSize {D} (eepromAccess : EepromAccess) (self : t D) : Z :=
  to_uint8 (readByte eepromAccess (address self - 1)).

Definition objectFlags : object_flags_t := class_objectFlags CEepromAwareValue.

Definition step {D} (c : Call D) (self : t D) : t D :=
  match c with
  | call_rehydrated a => rehydrated a self
  | call_derived method =>
      {| address := address self; derived := method (derived self) |}
  | call_eeprom_offset | call_eepromSize _ | call_objectFlags => self
  end.

Definition run {D} (calls : list (Call D)) (self : t D) : t D :=
  foldl (λ s c, step c s) self calls.

End EepromAwareValue.

(** The writable twin; [Values.h] repeats the code to avoid multiple
    inheritance. *)
Module EepromAwareWritableValue.

Record t (D : Type) : Type := mk {
  address : Z;
  derived : D
}.
Arguments mk {D} address derived.
Arguments address {D} _.
Arguments derived {D} _.

(** [eptr_t address = -1;] *)
Definition construct {D} (bits : Z) (d : D) : t D :=
  {| address := to_eptr bits (-1); derived := d |}.

Definition rehydrated {D} (_address : Z) (self : t D) : t D :=
  {| address := _address; derived := derived self |}.

Definition eeprom_offset {D} (self : t D) : Z := address self.

Definition eepromSize {D} (eepromAccess : EepromAccess) (self : t D) : Z :=
  to_uint8 (readByte eepromAccess (address self - 1)).

Definition objectFlags : object_flags_t :=
  class_objectFlags CEepromAwareWritableValue.

Definition step {D} (c : Call D) (self : t D) : t D :=
  match c with
  | call_rehydrated a => rehydrated a self
  | call_derived method =>
      {| address := address self; derived := method (derived self) |}
  | call_eeprom_offset | call_eepromSize _ | call_objectFlags => self
  end.

Definition run {D} (calls : list (Call D)) (self : t D) : t D :=
  foldl (λ s c, step c s) self calls.

End EepromAwareWritableValue.

(** ** The system-info block *)

(** Modelled from the spec: [DataIn], the input byte stream, "sequential byte
    read with no seek"; its state is the bytes not yet read. *)
Definition DataIn := list Z.

(** Modelled from the spec: [CboxError], the "enumerated result code (e.g.
    not writable, ok) returned by the streaming call".  Its declaration is not
    in these sources; [SysInfoBlock.h] names these two enumerators. *)
Inductive CboxError : Set :=
  | OK
  | OBJECT_NOT_WRITABLE.

Module SysInfoBlock.

(** The class declares no data member. *)
Inductive t : Set := mk.

(** A call hands back its result with the object and the stream as it
    leaves them. *)
Definition streamFrom (self : t) (in_ : DataIn) : CboxError * t * DataIn :=
  (OBJECT_NOT_WRITABLE, self, in_).

(** [streamPersistedTo] is [const] and takes the output stream by reference;
    the call hands back its result with the stream as it leaves it.  A
    [DataOut] is modelled by the bytes written to it so far. *)
Definition streamPersistedTo (self : t) (out : list Z) : CboxError * list Z :=
  (OK, out).

End SysInfoBlock.

(** ** Example object trees *)

(** The tree of the specification's resolution example: a root container of
    size 3 with an open container installed at slot 1 and a leaf value
    installed at slot 2 of that child. *)
Definition example_leaf : Object := PlainObject Value_objectFlags.

Definition example_child : Object :=
  ResidentContainer OpenContainer_objectFlags [NULL; NULL; Some 2%nat].

Definition example_root : Object :=
  ResidentContainer Container_objectFlags [NULL; Some 1%nat; NULL].

Definition example_heap : Heap :=
  {| live := <[0%nat := example_root]>
               (<[1%nat := example_child]> (<[2%nat := example_leaf]> ∅));
     next := 3%nat |}.

(** A factory container that makes a value on demand at slot 0 and has
    nothing to make at slot 1. *)
Definition example_factory : Object :=
  FactoryContainer Container_objectFlags [Some example_leaf; None].

Definition factory_heap : Heap :=
  {| live := <[0%nat := example_factory]> ∅; next := 1%nat |}.

(** A plain [Container], with the method bodies of [Values.h]. *)
Definition base_heap : Heap :=
  {| live := <[0%nat := BaseContainer Container_objectFlags]> ∅;
     next := 1%nat |}.

(** Calls on an eeprom-aware value that leave [rehydrated] alone. *)
Definition example_calls : list (Call nat) :=
  [call_eeprom_offset; call_derived (λ d : nat, S d);
   call_eepromSize (mkEeprom 16 (λ _, 0)); call_objectFlags].

(** ** The open container and what eeprom-aware calls amount to *)

(** [OpenContainer::add], [OpenContainer::next] and [OpenContainer::remove]
    as written in [Values.h]. *)
Definition OpenContainer_add (index : container_id) (item : ObjectPtr)
  : M bool := ret false.

Definition OpenContainer_next : container_id := to_int8 (-1).

Definition OpenContainer_remove (id : container_id) : M unit := ret tt.

(** A default [OpenContainer]: the flags of [OpenContainer::objectFlags] over
    the [item], [returnItem] and [size] it inherits from [Container]. *)
Definition default_OpenContainer : Object :=
  BaseContainer OpenContainer_objectFlags.

(** The argument of the last [rehydrated] among [calls], or [a] when there is
    none. *)
Definition last_rehydrated {D} (calls : list (Call D)) (a : Z) : Z :=
  foldl (λ a c, match c with
                | call_rehydrated b => b
                | _ => a
                end) a calls.

(** The methods of the derived class among [calls], applied in order. *)
Definition derived_effect {D} (calls : list (Call D)) (d : D) : D :=
  foldl (λ d c, match c with
                | call_derived method => method d
                | _ => d
                end) d calls.

(** ** The application: display refresh, mDNS set-up, network upkeep, loop *)

(** Calls into the platform and its libraries, in the order they are made;
    a call whose result the code uses carries that result. *)
Inductive Event : Type :=
  | D4D_TimeTickPut
  | D4D_CheckTouchScreen
  | D4D_Poll
  | D4D_FlushOutput
  | WiFi_connect
  | Particle_connect
  | mdns_begin (result : bool)
  | mdns_processQueries
  | client_read (result : Z)
  | client_write (text : string)
  | client_flush
  | delay (ms : Z)
  | client_stop
  | mdns_setHostname (hostname : string) (result : bool)
  | mdns_addService (protocol service : string) (port : Z)
      (instance : string) (result : bool)
  | mdns_addTXTEntry (key value : string)
  | hexCommunicate
  | updateBrewbloxBox
  | appWatchdog_checkin.

(** [ticks_millis_t] is declared in a header that is not part of these
    sources; it is taken to be an unsigned integer of [bits] bits that is no
    narrower than [int], so arithmetic on it wraps. *)
Definition to_ticks (bits : Z) (z : Z) : Z := z mod 2 ^ bits.

(** [static ticks_millis_t lastTick = -40;] *)
Definition lastTick_init (bits : Z) : Z := to_ticks bits (-40).

(** [displayTick()], given the reading of [ticks.millis()]: the new value of
    the static [lastTick] and the calls made. *)
Definition displayTick (bits : Z) (now : Z) (lastTick : Z) : Z * list Event :=
  if to_ticks bits (lastTick + 40) <? now
  then (now, [D4D_TimeTickPut; D4D_CheckTouchScreen; D4D_Poll; D4D_FlushOutput])
  else (lastTick, []).

(** [displayTick()] called once per reading of the clock: the readings at
    which the display was refreshed. *)
Fixpoint refresh_times (bits : Z) (nows : list Z) (lastTick : Z) : list Z :=
  match nows with
  | [] => []
  | now :: rest =>
      let r := displayTick bits now lastTick in
      match r.2 with
      | [] => refresh_times bits rest r.1
      | _ => now :: refresh_times bits rest r.1
      end
  end.

(** Each refresh comes more than 40 ticks after the one before ([prev]). *)
Fixpoint spaced (prev : Z) (times : list Z) : Prop :=
  match times with
  | [] => True
  | t :: rest => prev + 40 < t ∧ spaced t rest
  end.

(** [#define xstr(x) "x"]: the macro does not use its argument. *)
Definition xstr (x : Z) : string := "x".

(** [SparkVersion] is declared in a header that is not part of these sources;
    these are the enumerators [initMdns] switches on. *)
Inductive SparkVersion : Set := V1 | V2 | V3.

(** What the three registration calls of [initMdns] answer, should they be
    made. *)
Record MdnsResults : Set := {
  setHostname_result : bool;
  addService_http_result : bool;
  addService_brewblox_result : bool
}.

(** [initMdns()]; [&&] does not evaluate its right operand once [success] is
    false. *)
Definition initMdns (res : MdnsResults) (deviceID : string)
    (version : SparkVersion) (PLATFORM_ID : Z) : list Event :=
  let success := setHostname_result res in
  let ev1 := [mdns_setHostname deviceID (setHostname_result res)] in
  let ev2 := if success
             then [mdns_addService "tcp" "http" 80 deviceID
                     (addService_http_result res)]
             else [] in
  let success := success && addService_http_result res in
  let ev3 := if success
             then [mdns_addService "tcp" "brewblox" 8332 deviceID
                     (addService_brewblox_result res)]
             else [] in
  let success := success && addService_brewblox_result res in
  ev1 ++ ev2 ++ ev3 ++
  if success
  then let hw := "Spark " in
       let hw := match version with
                 | V1 => hw +:+ "1"
                 | V2 => hw +:+ "2"
                 | V3 => hw +:+ "3"
                 end in
       [mdns_addTXTEntry "VERSION" "0.1.0";
        mdns_addTXTEntry "ID" deviceID;
        mdns_addTXTEntry "PLATFORM" (xstr PLATFORM_ID);
        mdns_addTXTEntry "HW" hw]
  else [].

(** What one pass of [loop()] reads from the platform.  [client] is the
    connected client [httpserver.available()] hands out, if any, as the
    results its [read()] will give before it has no more data. *)
Record Readings : Type := {
  WiFi_ready : bool;
  WiFi_listening : bool;
  WiFi_connecting : bool;
  mdns_begin_result : bool;
  client : option (list Z);
  WiFi_listening_again : bool;
  ticks_millis : Z
}.

(** [while (client.read() != -1) { }]; [read()] answers -1 when there is no
    more data. *)
Fixpoint drain (pending : list Z) : list Event :=
  match pending with
  | [] => [client_read (-1)]
  | x :: rest => client_read x :: (if x =? -1 then [] else drain rest)
  end.

(** The page [manageConnections] answers every client with. *)
Definition http_response : string :=
  "HTTP/1.1 200 Ok

<html><body>Your BrewBlox Spark is online but it does not run it's own web server.
Please install a BrewBlox server to connect to it using the BrewBlox protocol.</body></html>

".

(** [manageConnections()]: the new value of the global [mdns_started] and the
    calls made.  [gcc] is [PLATFORM_ID == PLATFORM_GCC]. *)
Definition manageConnections (gcc : bool) (r : Readings) (mdns_started : bool)
  : bool * list Event :=
  if negb (WiFi_ready r) || WiFi_listening r
  then (mdns_started,
        if negb (WiFi_connecting r)
        then WiFi_connect :: (if gcc then [] else [Particle_connect])
        else [])
  else
    let m := if negb mdns_started
             then (mdns_begin_result r, [mdns_begin (mdns_begin_result r)])
             else (mdns_started, [mdns_processQueries]) in
    (m.1,
     m.2 ++
     match client r with
     | Some pending =>
         drain pending ++
         [client_write http_response; client_flush; delay 5; client_stop]
     | None => []
     end).

(** [watchdogCheckin()]; [threading] is [PLATFORM_THREADING]. *)
Definition watchdogCheckin (threading : bool) : list Event :=
  if threading then [appWatchdog_checkin] else [].

(** The globals [loop()] carries from one pass to the next. *)
Record AppState : Set := {
  mdns_started : bool;
  lastTick : Z
}.

(** [loop()] *)
Definition loop (gcc threading : bool) (bits : Z) (r : Readings)
    (s : AppState) : AppState * list Event :=
  let m := manageConnections gcc r (mdns_started s) in
  let d := displayTick bits (ticks_millis r) (lastTick s) in
  ({| mdns_started := m.1; lastTick := d.1 |},
   m.2 ++
   (if negb (WiFi_listening_again r) then [hexCommunicate] else []) ++
   [updateBrewbloxBox] ++
   d.2 ++
   watchdogCheckin threading).

(** [loop()] run once per element of [rs]. *)
Fixpoint loops (gcc threading : bool) (bits : Z) (rs : list Readings)
    (s : AppState) : AppState * list Event :=
  match rs with
  | [] => (s, [])
  | r :: rest =>
      let a := loop gcc threading bits r s in
      let b := loops gcc threading bits rest a.1 in
      (b.1, a.2 ++ b.2)
  end.

(** The order the mDNS responder has to be driven in: [begin] until it
    succeeds, [processQueries] only afterwards. *)
Fixpoint mdns_in_order (started : bool) (trace : list Event) : bool :=
  match trace with
  | [] => true
  | mdns_begin result :: rest => negb started && mdns_in_order result rest
  | mdns_processQueries :: rest => started && mdns_in_order started rest
  | _ :: rest => mdns_in_order started rest
  end.

Definition count_events (P : Event → bool) (trace : list Event) : nat :=
  length (List.filter P trace).

Definition is_txt (e : Event) : bool :=
  match e with mdns_addTXTEntry _ _ => true | _ => false end.

(** A call that answered false. *)
Definition failed (e : Event) : bool :=
  match e with
  | mdns_begin result | mdns_setHostname _ result
  | mdns_addService _ _ _ _ result => negb result
  | _ => false
  end.

Definition spark_digit (version : SparkVersion) : string :=
  match version with V1 => "1" | V2 => "2" | V3 => "3" end.

Definition is_update (e : Event) : bool :=
  match e with updateBrewbloxBox => true | _ => false end.

Definition is_checkin (e : Event) : bool :=
  match e with appWatchdog_checkin => true | _ => false end.

Definition is_hexCommunicate (e : Event) : bool :=
  match e with hexCommunicate => true | _ => false end.

Definition is_client_write (e : Event) : bool :=
  match e with client_write _ => true | _ => false end.

Definition is_client_stop (e : Event) : bool :=
  match e with client_stop => true | _ => false end.

Definition is_WiFi_connect (e : Event) : bool :=
  match e with WiFi_connect => true | _ => false end.

Definition is_Particle_connect (e : Event) : bool :=
  match e with Particle_connect => true | _ => false end.

(** A pass in which [manageConnections] finds the network down (not ready,
    or listening) and no connection attempt under way. *)
Definition needs_connect (r : Readings) : bool :=
  (negb (WiFi_ready r) || WiFi_listening r) && negb (WiFi_connecting r).

(** A pass in which [manageConnections] finds the network up and a client
    waiting. *)
Definition serves_client (r : Readings) : bool :=
  negb (negb (WiFi_ready r) || WiFi_listening r) &&
  match client r with Some _ => true | None => false end.

(** Readings under which the example passes run: network up, responder
    starting, one client with two bytes pending. *)
Definition example_readings (now : Z) : Readings :=
  {| WiFi_ready := true; WiFi_listening := false; WiFi_connecting := false;
     mdns_begin_result := true; client := Some [71; 69];
     WiFi_listening_again := false; ticks_millis := now |}.

(** * Properties *)

(** ** Bit-level facts about the flag tests *)

Lemma to_uint8_range z : 0 ≤ to_uint8 z < 256.
Proof. unfold to_uint8. apply Z.mod_pos_bound. lia. Qed.

Lemma to_uint8_small z : 0 ≤ z < 256 → to_uint8 z = z.
Proof. intros Hz. unfold to_uint8. by apply Z.mod_small. Qed.

Lemma to_uint8_idemp z : to_uint8 (to_uint8 z) = to_uint8 z.
Proof. apply to_uint8_small, to_uint8_range. Qed.

Lemma objectFlags_uint8 o : to_uint8 (objectFlags o) = objectFlags o.
Proof. destruct o; apply to_uint8_idemp. Qed.

(** Masking with a single bit keeps that bit and nothing else. *)
Lemma land_pow2 x n :
  0 ≤ n → Z.land x (2 ^ n) = if Z.testbit x n then 2 ^ n else 0.
Proof.
  intros Hn. apply Z.bits_inj'. intros i Hi.
  rewrite Z.land_spec, Z.pow2_bits_eqb by done.
  destruct (Z.eqb_spec n i) as [->|Hne].
  - destruct (Z.testbit x i) eqn:Hx; simpl.
    + by rewrite Z.pow2_bits_true.
    + by rewrite Z.bits_0.
  - rewrite andb_false_r.
    destruct (Z.testbit x n).
    + by rewrite Z.pow2_bits_false.
    + by rewrite Z.bits_0.
Qed.

Lemma land_two_bits x n m :
  0 ≤ n → 0 ≤ m →
  Z.land x (Z.lor (2 ^ n) (2 ^ m)) =
  Z.lor (if Z.testbit x n then 2 ^ n else 0)
        (if Z.testbit x m then 2 ^ m else 0).
Proof.
  intros Hn Hm. by rewrite Z.land_lor_distr_r, !land_pow2.
Qed.

Lemma hasFlags_uint8 v flags :
  0 ≤ flags < 256 →
  hasFlags (to_uint8 v) flags = (Z.land (to_uint8 v) flags =? flags).
Proof.
  intros Hf. unfold hasFlags.
  by rewrite to_uint8_idemp, (to_uint8_small flags).
Qed.

Lemma objectFlags_is_uint8 o : ∃ v, objectFlags o = to_uint8 v.
Proof. destruct o; simpl; eauto. Qed.

Lemma hasFlags_one_bit v n :
  0 ≤ n < 8 → hasFlags (to_uint8 v) (2 ^ n) = Z.testbit (to_uint8 v) n.
Proof.
  intros Hn.
  assert (0 < 2 ^ n < 256).
  { split; [apply Z.pow_pos_nonneg; lia|].
    change 256 with (2 ^ 8). apply Z.pow_lt_mono_r; lia. }
  rewrite hasFlags_uint8 by lia.
  rewrite land_pow2 by lia.
  destruct (Z.testbit (to_uint8 v) n).
  - apply Z.eqb_refl.
  - apply Z.eqb_neq. lia.
Qed.

Lemma pow2_lor_neq_l n m : 0 ≤ n → 0 ≤ m → n ≠ m → 2 ^ n ≠ Z.lor (2 ^ n) (2 ^ m).
Proof.
  intros Hn Hm Hne Heq. apply (f_equal (λ z, Z.testbit z m)) in Heq.
  rewrite Z.lor_spec, Z.pow2_bits_true, orb_true_r in Heq by done.
  rewrite Z.pow2_bits_false in Heq by done. done.
Qed.

Lemma pow2_lor_neq_0 n m : 0 ≤ n → 0 ≠ Z.lor (2 ^ n) (2 ^ m).
Proof.
  intros Hn Heq. apply (f_equal (λ z, Z.testbit z n)) in Heq.
  rewrite Z.lor_spec, Z.pow2_bits_true, Z.bits_0 in Heq by done. done.
Qed.

(** All of two required bits: the mask comes back whole exactly when both
    bits are there. *)
Lemma land_eqb_two_bits x n m :
  0 ≤ n → 0 ≤ m → n ≠ m →
  (Z.land x (Z.lor (2 ^ n) (2 ^ m)) =? Z.lor (2 ^ n) (2 ^ m)) =
  Z.testbit x n && Z.testbit x m.
Proof.
  intros Hn Hm Hne. rewrite land_two_bits by done.
  destruct (Z.testbit x n), (Z.testbit x m); cbn [andb negb].
  - apply Z.eqb_refl.
  - rewrite Z.lor_0_r. apply Z.eqb_neq. by apply pow2_lor_neq_l.
  - rewrite Z.lor_0_l, (Z.lor_comm (2 ^ n)).
    apply Z.eqb_neq. by apply pow2_lor_neq_l.
  - apply Z.eqb_neq. by apply pow2_lor_neq_0.
Qed.

(** One bit required and one forbidden. *)
Lemma land_eqb_bit_without x n m :
  0 ≤ n → 0 ≤ m → n ≠ m →
  (Z.land x (Z.lor (2 ^ n) (2 ^ m)) =? 2 ^ n) =
  Z.testbit x n && negb (Z.testbit x m).
Proof.
  intros Hn Hm Hne. rewrite land_two_bits by done.
  assert (0 < 2 ^ n) by (by apply Z.pow_pos_nonneg).
  destruct (Z.testbit x n), (Z.testbit x m); cbn [andb negb].
  - apply Z.eqb_neq. intros Heq. symmetry in Heq.
    by apply pow2_lor_neq_l in Heq.
  - rewrite Z.lor_0_r. apply Z.eqb_refl.
  - rewrite Z.lor_0_l. apply Z.eqb_neq. intros Heq.
    apply Z.pow_inj_r in Heq; lia.
  - change (Z.lor 0 0) with 0. apply Z.eqb_neq. lia.
Qed.

(** ** Capability flags *)

(** C1. For a non-null object [o]: [isContainer o] holds iff the Container
    bit of [o]'s flags is set; [isOpenContainer o] holds iff both the
    Container and the OpenContainer bits are set; [isLoggedValue o] holds
    iff the Value bit is set and the NotLogged bit is clear.  The test is
    AND-equals-required: container flags alone share a bit with the
    open-container mask and still fail [isOpenContainer]. *)
Theorem flag_predicates_test_bits (o : Object) :
  (isContainer (Some o) = true ↔
     bit_set ObjectFlags.Container (objectFlags o) = true) ∧
  (isOpenContainer (Some o) = true ↔
     bit_set ObjectFlags.Container (objectFlags o) = true ∧
     bit_set ObjectFlags.OpenContainerFlag (objectFlags o) = true) ∧
  (isLoggedValue (Some o) = true ↔
     bit_set ObjectFlags.Value (objectFlags o) = true ∧
     bit_set ObjectFlags.NotLogged (objectFlags o) = false) ∧
  (∀ value flags,
     hasFlags value flags =
     (Z.land (to_uint8 value) (to_uint8 flags) =? to_uint8 flags)) ∧
  (anyFlags Container_objectFlags
     (Z.lor ObjectFlags.Container ObjectFlags.OpenContainerFlag) = true ∧
   isOpenContainer (Some (BaseContainer Container_objectFlags)) = false).
Proof.
  destruct (objectFlags_is_uint8 o) as [v Hv].
  unfold isContainer, isOpenContainer, isLoggedValue, bit_set.
  rewrite Hv.
  change (Z.log2 ObjectFlags.Container) with 3.
  change (Z.log2 ObjectFlags.OpenContainerFlag) with 0.
  change (Z.log2 ObjectFlags.Value) with 2.
  change (Z.log2 ObjectFlags.NotLogged) with 4.
  repeat split.
  - change ObjectFlags.Container with (2 ^ 3).
    by rewrite hasFlags_one_bit.
  - change ObjectFlags.Container with (2 ^ 3).
    by rewrite hasFlags_one_bit.
  - revert H. unfold hasFlags. rewrite to_uint8_idemp.
    change (to_uint8 _) with (Z.lor (2 ^ 3) (2 ^ 0)) at 2 3.
    rewrite land_eqb_two_bits by done. by intros [? ?]%andb_true_iff.
  - revert H. unfold hasFlags. rewrite to_uint8_idemp.
    change (to_uint8 _) with (Z.lor (2 ^ 3) (2 ^ 0)) at 2 3.
    rewrite land_eqb_two_bits by done. by intros [? ?]%andb_true_iff.
  - intros [H3 H0]. unfold hasFlags. rewrite to_uint8_idemp.
    change (to_uint8 _) with (Z.lor (2 ^ 3) (2 ^ 0)) at 2 3.
    rewrite land_eqb_two_bits by done. by rewrite H3, H0.
  - revert H.
    change (Z.lor ObjectFlags.Value ObjectFlags.NotLogged)
      with (Z.lor (2 ^ 2) (2 ^ 4)).
    change ObjectFlags.Value with (2 ^ 2).
    rewrite land_eqb_bit_without by done. by intros [? ?]%andb_true_iff.
  - revert H.
    change (Z.lor ObjectFlags.Value ObjectFlags.NotLogged)
      with (Z.lor (2 ^ 2) (2 ^ 4)).
    change ObjectFlags.Value with (2 ^ 2).
    rewrite land_eqb_bit_without by done.
    intros [? ?%negb_true_iff]%andb_true_iff. done.
  - intros [H2 H4].
    change (Z.lor ObjectFlags.Value ObjectFlags.NotLogged)
      with (Z.lor (2 ^ 2) (2 ^ 4)).
    change ObjectFlags.Value with (2 ^ 2).
    rewrite land_eqb_bit_without by done. by rewrite H2, H4.
Qed.

(** C2. Every derived capability layer reports the bitwise OR of its base
    layer's flags with its own new bits: [Value] reports Object-flags | Value,
    [WritableValue] reports Value-flags | WritableFlag, [Container] reports
    Object-flags | Container, [OpenContainer] reports Container-flags |
    OpenContainerFlag; a class without an override adds no bit. *)
Theorem objectFlags_composition :
  (∀ c, class_objectFlags c =
        match base c with
        | Some b => Z.lor (class_objectFlags b) (own_bits c)
        | None => ObjectFlags.Object
        end) ∧
  Value_objectFlags = Z.lor Object_objectFlags ObjectFlags.Value ∧
  WritableValue_objectFlags =
    Z.lor Value_objectFlags ObjectFlags.WritableFlag ∧
  Container_objectFlags = Z.lor Object_objectFlags ObjectFlags.Container ∧
  OpenContainer_objectFlags =
    Z.lor Container_objectFlags ObjectFlags.OpenContainerFlag ∧
  (Object_objectFlags, Value_objectFlags, WritableValue_objectFlags,
   Container_objectFlags, OpenContainer_objectFlags) = (0, 4, 5, 8, 9).
Proof.
  split; [|by repeat split].
  intros c. destruct c; reflexivity.
Qed.

(** C10. [WritableFlag] and [OpenContainerFlag] are the same bit, so every
    object that reports the default [OpenContainer] flags (Container |
    OpenContainerFlag = 9) passes [isWritable], although it fails [isValue]
    and [OpenContainer] does not derive from [WritableValue] (nor from
    [Value]). *)
Theorem open_container_flags_pass_isWritable (o : Object) :
  objectFlags o = OpenContainer_objectFlags →
  isWritable (Some o) = true ∧
  isValue (Some o) = false ∧
  isOpenContainer (Some o) = true ∧
  ObjectFlags.WritableFlag = ObjectFlags.OpenContainerFlag ∧
  OpenContainer_objectFlags = 9 ∧
  class_objectFlags COpenContainer = OpenContainer_objectFlags ∧
  implements COpenContainer CWritableValue = false ∧
  implements COpenContainer CValue = false.
Proof.
  intros Ho. unfold isWritable, isValue, isOpenContainer. rewrite Ho.
  repeat split; auto.
Qed.

Lemma open_container_flags_pass_isWritable_witness :
  objectFlags (BaseContainer OpenContainer_objectFlags)
    = OpenContainer_objectFlags ∧
  isWritable (Some (BaseContainer OpenContainer_objectFlags)) = true ∧
  isValue (Some (BaseContainer OpenContainer_objectFlags)) = false.
Proof.
  split; [reflexivity|].
  pose proof (open_container_flags_pass_isWritable
                (BaseContainer OpenContainer_objectFlags) eq_refl) as H.
  split; [apply H | apply H].
Defined.

(** ** The container protocol *)

Lemma valid_id_spec id sz : valid_id id sz = true ↔ 0 ≤ id < sz.
Proof. unfold valid_id. rewrite andb_true_iff, Z.leb_le, Z.ltb_lt. done. Qed.

Lemma valid_id_false id sz : valid_id id sz = false ↔ id < 0 ∨ sz ≤ id.
Proof.
  rewrite <- not_true_iff_false, valid_id_spec. lia.
Qed.

(** Outside the valid ids every [item()] hands back [NULL] and leaves the
    heap alone. *)
Lemma item_invalid_id h c id :
  valid_id id (size h c) = false → item c id h = (NULL, h).
Proof.
  unfold item, size. intros Hid.
  destruct (deref h c) as [[fl|fl|fl slots|fl recipes]|]; try done.
  - unfold ResidentContainer_item. by rewrite Hid.
  - unfold FactoryContainer_item. by rewrite Hid.
Qed.

Lemma heap_wf_next_free h : heap_wf h → live h !! next h = None.
Proof.
  intros Hwf. destruct (live h !! next h) as [o|] eqn:Hl; [|done].
  apply Hwf in Hl. lia.
Qed.

Lemma heap_wf_deref_ne h c o : heap_wf h → deref h c = Some o → c ≠ Some (next h).
Proof.
  intros Hwf Hc ->. simpl in Hc. by rewrite heap_wf_next_free in Hc.
Qed.

(** [size()] reads the live objects only. *)
Lemma size_live h1 h2 c : live h1 = live h2 → size h1 c = size h2 c.
Proof. intros Hl. unfold size, deref. by rewrite Hl. Qed.

(** So does [item()], up to the name of the allocation a factory makes. *)
Lemma item_live h1 h2 c id :
  live h1 = live h2 →
  pointee (item c id h1) = pointee (item c id h2) ∧
  ((item c id h1).1 = NULL ↔ (item c id h2).1 = NULL).
Proof.
  intros Hl. unfold item.
  assert (deref h1 c = deref h2 c) as <- by (unfold deref; by rewrite Hl).
  destruct (deref h1 c) as [[fl|fl|fl slots|fl recipes]|];
    unfold Container_item, ret, pointee; simpl; try done.
  - unfold ResidentContainer_item, ret.
    destruct (valid_id _ _); simpl; [|done].
    unfold deref. by rewrite Hl.
  - unfold FactoryContainer_item, ret, new_object.
    destruct (valid_id _ _); simpl; [|done].
    destruct (recipes !! Z.to_nat id) as [[init|]|]; simpl; try done.
    by rewrite !lookup_insert_eq.
Qed.

(** What an allocation leaves of the objects that were already there. *)
Lemma deref_new_object h init c o :
  heap_wf h → deref h c = Some o → deref (new_object init h).2 c = Some o.
Proof.
  intros Hwf Hc. destruct c as [l|]; [|done]. simpl in *.
  rewrite lookup_insert_ne; [done|].
  intros <-. by rewrite heap_wf_next_free in Hc.
Qed.

(** A factory's successful [item()] is one allocation of the slot's recipe. *)
Lemma factory_item_cases h c id fl recipes :
  deref h c = Some (FactoryContainer fl recipes) →
  (∃ init, recipes !! Z.to_nat id = Some (Some init) ∧
           valid_id id (size h c) = true ∧
           item c id h = new_object init h) ∨
  item c id h = (NULL, h).
Proof.
  intros Hc. unfold item, size. rewrite Hc. unfold FactoryContainer_item.
  destruct (valid_id _ _); [|by right].
  destruct (recipes !! Z.to_nat id) as [[init|]|]; [|by right..].
  left. by exists init.
Qed.

Lemma borrow_cycle_heap h c id :
  heap_wf h →
  live (borrow_cycle c id h).2 = live h ∧
  (next h ≤ next (borrow_cycle c id h).2)%nat ∧
  ((∀ fl recipes, deref h c ≠ Some (FactoryContainer fl recipes)) →
   (borrow_cycle c id h).2 = h).
Proof.
  intros Hwf. unfold borrow_cycle, bind.
  destruct (deref h c) as [o|] eqn:Hc.
  2: { unfold item, returnItem. rewrite Hc. simpl. rewrite Hc. simpl.
       repeat split; auto. }
  destruct o as [fl|fl|fl slots|fl recipes].
  - unfold item, returnItem. rewrite Hc. simpl. rewrite Hc. simpl.
    repeat split; auto.
  - unfold item, returnItem. rewrite Hc. simpl. rewrite Hc. simpl.
    repeat split; auto.
  - unfold item, returnItem. rewrite Hc. unfold ResidentContainer_item.
    destruct (valid_id _ _); simpl; rewrite Hc; simpl; repeat split; auto.
  - destruct (factory_item_cases h c id fl recipes Hc)
      as [(init & _ & _ & ->)| ->].
    + pose proof (deref_new_object h init c _ Hwf Hc) as Hc'.
      unfold returnItem. simpl in *. rewrite Hc'. simpl.
      rewrite delete_insert_id by by apply heap_wf_next_free.
      split; [done|]. split; [lia|]. intros Hne. by destruct (Hne fl recipes).
    + unfold returnItem. rewrite Hc. simpl. repeat split; auto.
Qed.

Lemma borrow_cycle_wf h c id : heap_wf h → heap_wf (borrow_cycle c id h).2.
Proof.
  intros Hwf. destruct (borrow_cycle_heap h c id Hwf) as (Hl & Hn & _).
  intros l o. rewrite Hl. intros Hlo%Hwf. lia.
Qed.

Lemma example_heap_wf : heap_wf example_heap.
Proof.
  intros l o. unfold example_heap; simpl.
  destruct (decide (l < 3)%nat); [done|].
  rewrite !lookup_insert_ne by lia. by rewrite lookup_empty.
Qed.

Lemma factory_heap_wf : heap_wf factory_heap.
Proof.
  intros l o. unfold factory_heap; simpl.
  destruct (decide (l < 1)%nat); [done|].
  rewrite !lookup_insert_ne by lia. by rewrite lookup_empty.
Qed.

(** C8. For every id with [id >= size()] or [id < 0], [item(id)] returns
    null (and leaves the heap as it was); for the [Container] of [Values.h],
    whose [size()] is 0, that is every id. *)
Theorem item_out_of_range_is_null h c id :
  size h c ≤ id ∨ id < 0 →
  item c id h = (NULL, h).
Proof.
  intros Hid. apply item_invalid_id, valid_id_false. lia.
Qed.

Lemma item_out_of_range_is_null_witness :
  isContainer (deref base_heap (Some 0%nat)) = true ∧
  (size base_heap (Some 0%nat) ≤ 0 ∨ 0 < 0) ∧
  item (Some 0%nat) 0 base_heap = (NULL, base_heap).
Proof.
  split; [reflexivity|].
  assert (H : size base_heap (Some 0%nat) ≤ 0 ∨ 0 < 0).
  { left. vm_compute. discriminate. }
  split; [exact H|].
  exact (item_out_of_range_is_null base_heap (Some 0%nat) 0 H).
Defined.

(** On the example root, of size 3, id 9 is out of range. *)
Example item_out_of_range_example :
  item (Some 0%nat) 9 example_heap = (NULL, example_heap) ∧
  item (Some 0%nat) (-1) example_heap = (NULL, example_heap) ∧
  (item (Some 0%nat) 1 example_heap).1 = Some 1%nat.
Proof. by repeat split. Qed.

(** C7. [item(id)] followed immediately by [returnItem(id, result)] leaves
    the container's observable state unchanged: the live objects and the
    container's [size()] are the same, and every later [item()] call hands
    back the same object (null exactly when it was null before).  It holds
    for every id, the valid ones [0 <= id < size()] in particular; unless
    the container is a factory the heap is literally the same. *)
Theorem borrow_cycle_preserves_observable_state h c id :
  heap_wf h →
  let h' := (borrow_cycle c id h).2 in
  heap_wf h' ∧
  live h' = live h ∧
  size h' c = size h c ∧
  (∀ id', pointee (item c id' h') = pointee (item c id' h) ∧
          ((item c id' h').1 = NULL ↔ (item c id' h).1 = NULL)) ∧
  ((∀ fl recipes, deref h c ≠ Some (FactoryContainer fl recipes)) → h' = h).
Proof.
  intros Hwf h'.
  destruct (borrow_cycle_heap h c id Hwf) as (Hl & Hn & Hsame).
  split; [by apply borrow_cycle_wf|].
  split; [done|].
  split; [by apply size_live|].
  split; [|done].
  intros id'. by apply item_live.
Qed.

Lemma borrow_cycle_preserves_observable_state_witness :
  heap_wf factory_heap ∧
  valid_id 0 (size factory_heap (Some 0%nat)) = true ∧
  size (borrow_cycle (Some 0%nat) 0 factory_heap).2 (Some 0%nat)
    = size factory_heap (Some 0%nat) ∧
  pointee (item (Some 0%nat) 0 (borrow_cycle (Some 0%nat) 0 factory_heap).2)
    = Some example_leaf.
Proof.
  split; [exact factory_heap_wf|].
  split; [reflexivity|].
  pose proof (borrow_cycle_preserves_observable_state
                factory_heap (Some 0%nat) 0 factory_heap_wf) as H.
  simpl in H. destruct H as (_ & _ & Hsize & Hitem & _).
  split; [exact Hsize|].
  destruct (Hitem 0) as [-> _]. reflexivity.
Defined.



(** ** Id-chain resolution *)

Lemma lookupFrom_null chain h : (lookupFrom NULL chain h).1 = NULL.
Proof. by destruct chain. Qed.

(** Returning the intermediate container afterwards does not change what
    the walk below it resolved to. *)
Lemma lookupFrom_cons cur id rest h :
  isContainer (deref h cur) = true →
  (lookupFrom cur (id :: rest) h).1 =
  (lookupFrom (item cur id h).1 rest (item cur id h).2).1.
Proof.
  intros Hc. simpl. rewrite Hc. unfold bind.
  destruct (item cur id h) as [o h1]. simpl.
  destruct rest as [|id' rest']; [done|].
  destruct (lookupFrom o (id' :: rest') h1) as [r h2].
  by destruct (returnItem cur id o h2).
Qed.

Lemma Addresses_functional h cur chain p q :
  Addresses h cur chain p → Addresses h cur chain q → p = q.
Proof.
  intros Hp. revert q.
  induction Hp as [h cur|h cur id rest o h' p Hc Hv Hitem Hp IH];
    intros q Hq; inversion Hq as [|? ? ? ? o2 h2 ? _ _ Hitem2 Hq2]; subst;
    [done|].
  rewrite Hitem in Hitem2. injection Hitem2 as <- <-. by apply IH.
Qed.

Lemma ResolutionFails_not_Addresses h cur chain p :
  ResolutionFails h cur chain → Addresses h cur chain p → False.
Proof.
  intros Hf. revert p.
  induction Hf as [h cur id rest Hc|h cur id rest Hc Hv
                  |h cur id rest o h' Hc Hv Hitem Hf IH];
    intros p Hp; inversion Hp as [|? ? ? ? o2 h2 ? Hc2 Hv2 Hitem2 Hp2]; subst;
    try congruence.
  rewrite Hitem in Hitem2. injection Hitem2 as <- <-. by apply (IH p).
Qed.

(** Every walk either fails in one of the listed ways, and then yields
    [NULL], or yields the pointer the chain addresses. *)
Lemma lookupFrom_outcome chain : ∀ cur h,
  (ResolutionFails h cur chain ∧ (lookupFrom cur chain h).1 = NULL) ∨
  Addresses h cur chain (lookupFrom cur chain h).1.
Proof.
  induction chain as [|id rest IH]; intros cur h.
  - right. constructor.
  - destruct (isContainer (deref h cur)) eqn:Hc.
    2: { left. split; [by constructor|]. simpl. by rewrite Hc. }
    rewrite lookupFrom_cons by done.
    destruct (valid_id id (size h cur)) eqn:Hv.
    2: { left. split; [by apply fails_out_of_range|].
         rewrite item_invalid_id by done. apply lookupFrom_null. }
    destruct (item cur id h) as [o h1] eqn:Hitem. simpl.
    destruct (IH o h1) as [[Hf Hnull]|Ha].
    + left. split; [|done]. by eapply fails_below.
    + right. by eapply addresses_below.
Qed.

(** C3, as amended. Resolution never raises: it always returns a pointer.
    The pointer is null exactly when the chain is deeper than
    [MAX_CONTAINER_DEPTH] (3), or an id is out of range for the container it
    indexes, or ids remain where there is no container, or (the case the
    specification leaves out) the chain addresses an empty slot, for which [item()]
    hands back null; otherwise it is the addressed object. *)
Theorem lookupObject_null_exactly h root chain :
  ((lookupObject root chain h).1 = NULL ↔
     MAX_CONTAINER_DEPTH < Z.of_nat (length chain) ∨
     ResolutionFails h root chain ∨
     Addresses h root chain NULL) ∧
  (∀ l, (lookupObject root chain h).1 = Some l →
     Addresses h root chain (Some l)) ∧
  (∀ p, Z.of_nat (length chain) ≤ MAX_CONTAINER_DEPTH →
     Addresses h root chain p → (lookupObject root chain h).1 = p).
Proof.
  unfold lookupObject.
  destruct (Z.ltb_spec MAX_CONTAINER_DEPTH (Z.of_nat (length chain)))
    as [Hdeep|Hok].
  - split; [|split].
    + split; [by left|done].
    + intros l [=].
    + intros p ?. lia.
  - pose proof (lookupFrom_outcome chain root h) as Hout.
    split; [|split].
    + split.
      * intros Hnull. right.
        destruct Hout as [[Hf _]|Ha]; [by left|right]. by rewrite <- Hnull.
      * intros [?|[Hf|Ha]]; [lia| |].
        -- destruct Hout as [[_ Hnull]|Ha]; [done|].
           destruct (ResolutionFails_not_Addresses _ _ _ _ Hf Ha).
        -- destruct Hout as [[_ Hnull]|Ha']; [done|].
           by eapply Addresses_functional.
    + intros l Hl. destruct Hout as [[_ Hnull]|Ha]; [by rewrite Hnull in Hl|].
      by rewrite <- Hl.
    + intros p _ Hp. destruct Hout as [[Hf _]|Ha].
      * destruct (ResolutionFails_not_Addresses _ _ _ _ Hf Hp).
      * by eapply Addresses_functional.
Qed.

(** C3, as stated, fails on an empty slot: slot 0 of the example root is a
    valid id of a container, the chain [[0]] has depth 1, none of the three
    listed failures occurs, and resolution still returns null. *)
Lemma lookupObject_empty_slot_is_null :
  isContainer (deref example_heap (Some 0%nat)) = true ∧
  valid_id 0 (size example_heap (Some 0%nat)) = true ∧
  (lookupObject (Some 0%nat) [0] example_heap).1 = NULL ∧
  ¬ (MAX_CONTAINER_DEPTH < Z.of_nat (length [0 : container_id]) ∨
     ResolutionFails example_heap (Some 0%nat) [0]).
Proof.
  split; [reflexivity|]. split; [reflexivity|]. split; [reflexivity|].
  intros [Hdeep|Hf].
  - vm_compute in Hdeep. discriminate.
  - inversion Hf as [? ? ? ? Hc|? ? ? ? Hc Hv|? ? ? ? o h' Hc Hv Hitem Hbelow];
      subst.
    + vm_compute in Hc. discriminate.
    + vm_compute in Hv. discriminate.
    + inversion Hbelow.
Qed.

(** The resolutions the specification works out on the example tree. *)
Example lookupObject_leaf :
  (lookupObject (Some 0%nat) [1; 2] example_heap).1 = Some 2%nat ∧
  pointee (lookupObject (Some 0%nat) [1; 2] example_heap) = Some example_leaf.
Proof. split; reflexivity. Qed.

Example lookupObject_below_leaf :
  (lookupObject (Some 0%nat) [1; 2; 0] example_heap).1 = NULL.
Proof. reflexivity. Qed.

Example lookupObject_out_of_range :
  (lookupObject (Some 0%nat) [9] example_heap).1 = NULL.
Proof. reflexivity. Qed.

Example lookupObject_too_deep :
  (lookupObject (Some 0%nat) [1; 1; 1; 1] example_heap).1 = NULL.
Proof. reflexivity. Qed.

(** ** Persisted addresses *)

Section persisted_address.
Context {D : Type}.





End persisted_address.




Lemma readByte_uint8 ea offset : to_uint8 (readByte ea offset) = readByte ea offset.
Proof. apply to_uint8_idemp. Qed.

Lemma to_eptr_small bits a : 0 ≤ a < 2 ^ bits → to_eptr bits a = a.
Proof. intros Ha. unfold to_eptr. by apply Z.mod_small. Qed.

(** C6. For an eeprom-aware value whose address [rehydrated] set to [a],
    [eepromSize(eepromAccess)] returns exactly the byte [eepromAccess] reads
    at offset [a - 1], which for [1 <= a] within the range of [eptr_t] is
    the cell at [a - 1]; with length byte 5 written at offset 100 and the
    address set to 101, [eepromSize()] returns 5.  It holds for both
    eeprom-aware classes. *)
Theorem eepromSize_reads_length_byte {D : Type} (ea : EepromAccess) (a : Z)
    (v : EepromAwareValue.t D) (w : EepromAwareWritableValue.t D) :
  EepromAwareValue.eepromSize ea (EepromAwareValue.rehydrated a v)
    = readByte ea (a - 1) ∧
  EepromAwareWritableValue.eepromSize ea
      (EepromAwareWritableValue.rehydrated a w)
    = readByte ea (a - 1) ∧
  (1 ≤ a ≤ 2 ^ eptr_bits ea →
   readByte ea (a - 1) = to_uint8 (cells ea (a - 1))) ∧
  EepromAwareValue.eepromSize (writeByte ea 100 5)
      (EepromAwareValue.rehydrated 101 v) = 5 ∧
  EepromAwareWritableValue.eepromSize (writeByte ea 100 5)
      (EepromAwareWritableValue.rehydrated 101 w) = 5.
Proof.
  unfold EepromAwareValue.eepromSize, EepromAwareWritableValue.eepromSize.
  simpl. rewrite !readByte_uint8.
  split; [done|]. split; [done|]. split.
  - intros Ha. unfold readByte. by rewrite to_eptr_small by lia.
  - unfold readByte, writeByte. simpl. by rewrite Z.eqb_refl.
Qed.

(** ** The system-info block *)

(** C9. [SysInfoBlock::streamFrom] reports the failure through its result
    code: for every input stream it returns [OBJECT_NOT_WRITABLE], and it
    leaves the object and the stream as they were. *)
Theorem streamFrom_not_writable (self : SysInfoBlock.t) (in_ : DataIn) :
  SysInfoBlock.streamFrom self in_ = (OBJECT_NOT_WRITABLE, self, in_) ∧
  OBJECT_NOT_WRITABLE ≠ OK.
Proof. by split. Qed.

(** * Further properties of the sources *)

(** ** More on the flag tests *)

Lemma to_uint8_land z : to_uint8 z = Z.land z (Z.ones 8).
Proof. unfold to_uint8. by rewrite Z.land_ones. Qed.

Lemma to_uint8_lor a b : to_uint8 (Z.lor a b) = Z.lor (to_uint8 a) (to_uint8 b).
Proof. rewrite !to_uint8_land. apply Z.land_lor_distr_l. Qed.

(** A mask made of two parts comes back whole exactly when each part does. *)
Lemma land_eq_lor x a b :
  Z.land x (Z.lor a b) = Z.lor a b ↔ Z.land x a = a ∧ Z.land x b = b.
Proof.
  split.
  - intros H. split; apply Z.bits_inj'; intros i Hi;
      apply (f_equal (λ z, Z.testbit z i)) in H;
      rewrite Z.land_spec, Z.lor_spec in H; rewrite Z.land_spec;
      destruct (Z.testbit x i), (Z.testbit a i), (Z.testbit b i);
      simpl in *; congruence.
  - intros [Ha Hb]. apply Z.bits_inj'; intros i Hi.
    apply (f_equal (λ z, Z.testbit z i)) in Ha, Hb.
    rewrite Z.land_spec in Ha, Hb. rewrite Z.land_spec, Z.lor_spec.
    destruct (Z.testbit x i), (Z.testbit a i), (Z.testbit b i);
      simpl in *; congruence.
Qed.

(** X1. Requiring the union of two masks is requiring each of them:
    [hasFlags v (f1 | f2)] holds iff [hasFlags v f1] and [hasFlags v f2] both
    hold; the empty mask is always satisfied. *)
Theorem hasFlags_lor (value f1 f2 : Z) :
  hasFlags value (Z.lor f1 f2) = hasFlags value f1 && hasFlags value f2 ∧
  hasFlags value 0 = true.
Proof.
  split.
  - unfold hasFlags. rewrite to_uint8_lor.
    apply eq_true_iff_eq.
    rewrite andb_true_iff, !Z.eqb_eq. apply land_eq_lor.
  - unfold hasFlags. change (to_uint8 0) with 0.
    rewrite Z.land_0_r. done.
Qed.

(** X2. For a non-null object, [isValue] tests the Value bit, [isWritable]
    the Writable bit and [isDynamicallyAllocated] that the StaticlyAllocated
    bit is clear; on [NULL] every one of the six predicates is false. *)
Theorem value_predicates_test_bits (o : Object) :
  isValue (Some o) = bit_set ObjectFlags.Value (objectFlags o) ∧
  isWritable (Some o) = bit_set ObjectFlags.WritableFlag (objectFlags o) ∧
  isDynamicallyAllocated (Some o) =
    negb (bit_set ObjectFlags.StaticlyAllocated (objectFlags o)) ∧
  (isContainer None, isOpenContainer None, isValue None,
   isLoggedValue None, isDynamicallyAllocated None, isWritable None)
  = (false, false, false, false, false, false).
Proof.
  destruct (objectFlags_is_uint8 o) as [v Hv].
  unfold isValue, isWritable, isDynamicallyAllocated, bit_set. rewrite Hv.
  change (Z.log2 ObjectFlags.Value) with 2.
  change (Z.log2 ObjectFlags.WritableFlag) with 0.
  change (Z.log2 ObjectFlags.StaticlyAllocated) with 5.
  split; [|split; [|split; [|done]]].
  - change ObjectFlags.Value with (2 ^ 2). by rewrite hasFlags_one_bit.
  - change ObjectFlags.WritableFlag with (2 ^ 0). by rewrite hasFlags_one_bit.
  - change ObjectFlags.StaticlyAllocated with (2 ^ 5).
    rewrite land_pow2 by done. by destruct (Z.testbit (to_uint8 v) 5).
Qed.

(** X3. Because the OpenContainer and Writable flags are one bit, for every
    object pointer [isOpenContainer] is exactly [isContainer] and
    [isWritable] together; and a logged value is a value. *)
Theorem isOpenContainer_is_writable_container (o : option Object) :
  isOpenContainer o = isContainer o && isWritable o ∧
  (isLoggedValue o = true → isValue o = true).
Proof.
  destruct o as [o|]; [|done].
  unfold isOpenContainer, isContainer, isWritable, isLoggedValue, isValue.
  split.
  - apply hasFlags_lor.
  - destruct (objectFlags_is_uint8 o) as [v ->].
    change (Z.lor ObjectFlags.Value ObjectFlags.NotLogged)
      with (Z.lor (2 ^ 2) (2 ^ 4)).
    change ObjectFlags.Value with (2 ^ 2).
    rewrite land_eqb_bit_without, hasFlags_one_bit by done.
    by intros [? _]%andb_true_iff.
Qed.

(** X4. On the flags the classes of [Values.h] report, the flag tests agree
    with the class hierarchy for containers, open containers and values;
    the Writable bit is reported by the writable values and by the open
    container; every class is dynamically allocated, and every value class
    is logged. *)
Theorem class_flags_follow_hierarchy (c : Class) :
  let o := Some (PlainObject (class_objectFlags c)) in
  isContainer o = implements c CContainer ∧
  isOpenContainer o = implements c COpenContainer ∧
  isValue o = implements c CValue ∧
  isWritable o = implements c CWritableValue || implements c COpenContainer ∧
  isLoggedValue o = implements c CValue ∧
  isDynamicallyAllocated o = true.
Proof. by destruct c. Qed.

(** ** More on containers *)

(** X5. An [OpenContainer] that overrides nothing passes [isOpenContainer]
    and [isWritable] but holds nothing and accepts nothing: its size is 0,
    [item] is null for every id, [next()] is [INVALID_ID] (never a valid id),
    [add] answers false and the slot it was asked to fill still yields null,
    and [remove] changes nothing. *)
Theorem default_OpenContainer_accepts_nothing h c (index : container_id)
    (it : ObjectPtr) :
  deref h c = Some default_OpenContainer →
  isOpenContainer (deref h c) = true ∧
  isWritable (deref h c) = true ∧
  size h c = 0 ∧
  (∀ id, item c id h = (NULL, h)) ∧
  OpenContainer_next = INVALID_ID ∧
  (∀ sz, valid_id OpenContainer_next sz = false) ∧
  (OpenContainer_add index it h).1 = false ∧
  item c index (OpenContainer_add index it h).2 = (NULL, h) ∧
  OpenContainer_remove index h = (tt, h).
Proof.
  intros Hc. rewrite Hc. unfold size, item. rewrite Hc. simpl.
  rewrite Hc. by repeat split.
Qed.

Lemma default_OpenContainer_accepts_nothing_witness :
  let h := {| live := <[0%nat := default_OpenContainer]> ∅; next := 1%nat |} in
  deref h (Some 0%nat) = Some default_OpenContainer ∧
  (OpenContainer_add 0 (Some 5%nat) h).1 = false ∧
  item (Some 0%nat) 0 (OpenContainer_add 0 (Some 5%nat) h).2 = (NULL, h).
Proof.
  intros h. split; [reflexivity|].
  pose proof (default_OpenContainer_accepts_nothing h (Some 0%nat) 0
                (Some 5%nat) eq_refl) as H.
  split; apply H.
Defined.



(** ** More on persisted addresses *)

Section persisted_address_runs.
Context {D : Type}.

Lemma EepromAwareValue_run_is (calls : list (Call D))
    (self : EepromAwareValue.t D) :
  EepromAwareValue.run calls self =
  EepromAwareValue.mk
    (last_rehydrated calls (EepromAwareValue.address self))
    (derived_effect calls (EepromAwareValue.derived self)).
Proof.
  revert self. induction calls as [|c calls IH]; intros [a d]; [done|].
  unfold EepromAwareValue.run, last_rehydrated, derived_effect in *.
  simpl. rewrite IH. by destruct c.
Qed.

Lemma EepromAwareWritableValue_run_is (calls : list (Call D))
    (self : EepromAwareWritableValue.t D) :
  EepromAwareWritableValue.run calls self =
  EepromAwareWritableValue.mk
    (last_rehydrated calls (EepromAwareWritableValue.address self))
    (derived_effect calls (EepromAwareWritableValue.derived self)).
Proof.
  revert self. induction calls as [|c calls IH]; intros [a d]; [done|].
  unfold EepromAwareWritableValue.run, last_rehydrated, derived_effect in *.
  simpl. rewrite IH. by destruct c.
Qed.

End persisted_address_runs.


(** X8. The two eeprom-aware classes, whose code [Values.h] repeats, behave
    alike: from equal addresses and equal derived states, the same calls
    leave equal addresses and derived states, and [eepromSize] reads the
    same byte; their flags differ by the Writable bit only. *)
Theorem eeprom_aware_twins_agree {D : Type} (calls : list (Call D))
    (ea : EepromAccess)
    (v : EepromAwareValue.t D) (w : EepromAwareWritableValue.t D) :
  EepromAwareValue.address v = EepromAwareWritableValue.address w →
  EepromAwareValue.derived v = EepromAwareWritableValue.derived w →
  EepromAwareValue.eeprom_offset (EepromAwareValue.run calls v) =
    EepromAwareWritableValue.eeprom_offset
      (EepromAwareWritableValue.run calls w) ∧
  EepromAwareValue.derived (EepromAwareValue.run calls v) =
    EepromAwareWritableValue.derived (EepromAwareWritableValue.run calls w) ∧
  EepromAwareValue.eepromSize ea (EepromAwareValue.run calls v) =
    EepromAwareWritableValue.eepromSize ea
      (EepromAwareWritableValue.run calls w) ∧
  EepromAwareWritableValue.objectFlags =
    Z.lor EepromAwareValue.objectFlags ObjectFlags.WritableFlag.
Proof.
  intros Ha Hd.
  rewrite EepromAwareValue_run_is, EepromAwareWritableValue_run_is.
  unfold EepromAwareValue.eepromSize, EepromAwareWritableValue.eepromSize.
  simpl. by rewrite Ha, Hd.
Qed.

Lemma eeprom_aware_twins_agree_witness :
  EepromAwareValue.eeprom_offset
    (EepromAwareValue.run (example_calls ++ [call_rehydrated 9])
       (EepromAwareValue.construct 16 0%nat)) =
  EepromAwareWritableValue.eeprom_offset
    (EepromAwareWritableValue.run (example_calls ++ [call_rehydrated 9])
       (EepromAwareWritableValue.construct 16 0%nat)).
Proof.
  exact (proj1 (eeprom_aware_twins_agree (example_calls ++ [call_rehydrated 9])
                  (mkEeprom 16 (λ _, 0))
                  (EepromAwareValue.construct 16 0%nat)
                  (EepromAwareWritableValue.construct 16 0%nat)
                  eq_refl eq_refl)).
Defined.

(** X9. With [eptr_t] unsigned, an eeprom-aware value that was never
    rehydrated reports the largest offset, [(eptr_t)(-1)]; and [eepromSize]
    on address 0 does not read below the store but wraps to its last cell. *)
Theorem eepromSize_wraps_at_zero {D : Type} (ea : EepromAccess) (d : D)
    (v : EepromAwareValue.t D) (w : EepromAwareWritableValue.t D) :
  0 ≤ eptr_bits ea →
  EepromAwareValue.eeprom_offset (EepromAwareValue.construct (eptr_bits ea) d)
    = 2 ^ eptr_bits ea - 1 ∧
  EepromAwareWritableValue.eeprom_offset
      (EepromAwareWritableValue.construct (eptr_bits ea) d)
    = 2 ^ eptr_bits ea - 1 ∧
  EepromAwareValue.eepromSize ea (EepromAwareValue.rehydrated 0 v)
    = to_uint8 (cells ea (2 ^ eptr_bits ea - 1)) ∧
  EepromAwareWritableValue.eepromSize ea
      (EepromAwareWritableValue.rehydrated 0 w)
    = to_uint8 (cells ea (2 ^ eptr_bits ea - 1)).
Proof.
  intros Hbits.
  assert (Hpos : 0 < 2 ^ eptr_bits ea) by (by apply Z.pow_pos_nonneg).
  assert (Hwrap : to_eptr (eptr_bits ea) (-1) = 2 ^ eptr_bits ea - 1).
  { unfold to_eptr.
    rewrite <- (Z.mod_small (2 ^ eptr_bits ea - 1) (2 ^ eptr_bits ea)) by lia.
    rewrite <- (Z_mod_plus_full (-1) 1 (2 ^ eptr_bits ea)).
    f_equal. lia. }
  unfold EepromAwareValue.eepromSize, EepromAwareWritableValue.eepromSize.
  simpl. rewrite !readByte_uint8. unfold readByte.
  change (0 - 1) with (-1). by rewrite Hwrap.
Qed.

Lemma eepromSize_wraps_at_zero_witness :
  EepromAwareValue.eepromSize
    (writeByte (mkEeprom 16 (λ _, 0)) 65535 7)
    (EepromAwareValue.rehydrated 0 (EepromAwareValue.construct 16 ())) = 7.
Proof.
  pose proof (eepromSize_wraps_at_zero
                (writeByte (mkEeprom 16 (λ _, 0)) 65535 7) ()
                (EepromAwareValue.construct 16 ())
                (EepromAwareWritableValue.construct 16 ())) as H.
  simpl in H. destruct H as (_ & _ & H & _); [lia|].
  rewrite H. reflexivity.
Defined.

(** ** More on the system-info block *)

(** X10. [SysInfoBlock::streamPersistedTo] reports [OK] and writes nothing,
    whatever the stream holds already; the block has no persisted form, and
    reading one back through [streamFrom] is refused. *)
Theorem sysinfo_persists_nothing (self : SysInfoBlock.t) (out : list Z) :
  SysInfoBlock.streamPersistedTo self out = (OK, out) ∧
  (SysInfoBlock.streamFrom self
     (drop (length out) (SysInfoBlock.streamPersistedTo self out).2)).1.1
  = OBJECT_NOT_WRITABLE ∧
  drop (length out) (SysInfoBlock.streamPersistedTo self out).2 = [].
Proof.
  repeat split. simpl. apply drop_all.
Qed.

(** ** The application *)

Lemma refresh_times_spaced bits nows : ∀ lastTick p,
  to_ticks bits (lastTick + 40) = p + 40 →
  Forall (λ t, 0 ≤ t ∧ t + 40 < 2 ^ bits) nows →
  spaced p (refresh_times bits nows lastTick).
Proof.
  induction nows as [|now rest IH]; intros lastTick p Hlast Hnows; [done|].
  apply Forall_cons in Hnows as [[Hnow0 Hnow] Hrest].
  simpl. unfold displayTick. rewrite Hlast.
  destruct (Z.ltb_spec (p + 40) now) as [Hlt|Hge]; simpl.
  - split; [done|]. apply IH; [|done].
    unfold to_ticks. apply Z.mod_small. lia.
  - by apply IH.
Qed.

(** X11. [displayTick] refreshes the display at most once every 40 ticks:
    over any readings of the clock that stay 40 below its wrap-around, each
    refresh comes more than 40 ticks after the previous one, and the first
    one needs a reading above 0. *)
Theorem displayTick_throttles (bits : Z) (nows : list Z) :
  Forall (λ t, 0 ≤ t ∧ t + 40 < 2 ^ bits) nows →
  spaced (-40) (refresh_times bits nows (lastTick_init bits)).
Proof.
  intros Hnows. destruct nows as [|now rest]; [done|].
  apply refresh_times_spaced; [|done].
  apply Forall_cons in Hnows as [[Hnow0 Hnow] _].
  unfold lastTick_init, to_ticks.
  rewrite Z.add_mod_idemp_l by lia. by apply Z.mod_0_l; lia.
Qed.

Lemma displayTick_throttles_witness :
  refresh_times 32 [0; 10; 41; 50; 100; 141] (lastTick_init 32) = [10; 100; 141] ∧
  spaced (-40) (refresh_times 32 [0; 10; 41; 50; 100; 141] (lastTick_init 32)).
Proof.
  split; [reflexivity|].
  apply (displayTick_throttles 32 [0; 10; 41; 50; 100; 141]).
  change (2 ^ 32) with 4294967296.
  repeat (apply Forall_cons; split; [lia|]). apply Forall_nil_2.
Defined.

(** X12. [initMdns] publishes TXT entries only when the host name and both
    services registered; they are then VERSION, ID (the device id), PLATFORM
    and HW (the board version), and the PLATFORM entry is the text [x]
    whatever the platform id, because [xstr] ignores its argument. *)
Theorem initMdns_txt_entries (res : MdnsResults) (deviceID : string)
    (version : SparkVersion) (PLATFORM_ID : Z) :
  List.filter is_txt (initMdns res deviceID version PLATFORM_ID) =
  if setHostname_result res && addService_http_result res
     && addService_brewblox_result res
  then [mdns_addTXTEntry "VERSION" "0.1.0";
        mdns_addTXTEntry "ID" deviceID;
        mdns_addTXTEntry "PLATFORM" "x";
        mdns_addTXTEntry "HW" ("Spark " +:+ spark_digit version)]
  else [].
Proof.
  destruct res as [[] [] []], version; reflexivity.
Qed.

(** X13. [initMdns] stops registering at the first call that fails: nothing
    follows a failed call, neither a further service nor a TXT entry. *)
Theorem initMdns_stops_at_failure (res : MdnsResults) (deviceID : string)
    (version : SparkVersion) (PLATFORM_ID : Z) (before after : list Event)
    (e : Event) :
  initMdns res deviceID version PLATFORM_ID = before ++ e :: after →
  failed e = true →
  after = [].
Proof.
  intros Htrace He.
  destruct res as [[] [] []]; unfold initMdns in Htrace; simpl in Htrace;
    repeat (destruct before as [|? before]; simplify_eq/=; try done).
Qed.

Lemma initMdns_stops_at_failure_witness :
  initMdns {| setHostname_result := true; addService_http_result := false;
              addService_brewblox_result := true |} "abc" V2 6
  = [mdns_setHostname "abc" true] ++
    mdns_addService "tcp" "http" 80 "abc" false :: [] ∧
  failed (mdns_addService "tcp" "http" 80 "abc" false) = true ∧
  @nil Event = [].
Proof.
  split; [reflexivity|]. split; [reflexivity|].
  exact (initMdns_stops_at_failure
     {| setHostname_result := true; addService_http_result := false;
        addService_brewblox_result := true |} "abc" V2 6
     [mdns_setHostname "abc" true] []
     (mdns_addService "tcp" "http" 80 "abc" false) eq_refl eq_refl).
Defined.

(** X14. The loop that empties a client reads until the first answer of -1
    and never past it: what it reads is a prefix of what was pending, none of
    it -1, followed by one read that answers -1. *)
Theorem drain_reads_to_first_end (pending : list Z) :
  ∃ reads rest,
    pending = reads ++ rest ∧
    Forall (λ x, x ≠ -1) reads ∧
    drain pending = (client_read <$> reads) ++ [client_read (-1)] ∧
    (rest = [] ∨ ∃ rest', rest = -1 :: rest').
Proof.
  induction pending as [|x pending IH].
  - exists [], []. repeat split; auto.
  - simpl. destruct (Z.eqb_spec x (-1)) as [->|Hx].
    + exists [], (-1 :: pending). repeat split; eauto.
    + destruct IH as (reads & rest & -> & Hreads & -> & Hrest).
      exists (x :: reads), rest. repeat split; auto.
Qed.

Lemma mdns_in_order_drain started pending rest :
  mdns_in_order started (drain pending ++ rest) = mdns_in_order started rest.
Proof.
  induction pending as [|x pending IH]; [done|].
  simpl. by destruct (x =? -1).
Qed.

Lemma manageConnections_mdns_in_order gcc r started rest :
  mdns_in_order started ((manageConnections gcc r started).2 ++ rest) =
  mdns_in_order (manageConnections gcc r started).1 rest.
Proof.
  unfold manageConnections.
  destruct r as [ready listening connecting begin cl again now]; simpl.
  destruct ready, listening, connecting, gcc, started, begin,
    cl as [pending|]; simpl;
    rewrite <- ?app_assoc, ?mdns_in_order_drain; done.
Qed.

Lemma loop_mdns_in_order gcc threading bits r s rest :
  mdns_in_order (mdns_started s) ((loop gcc threading bits r s).2 ++ rest) =
  mdns_in_order (mdns_started (loop gcc threading bits r s).1) rest.
Proof.
  unfold loop. cbn [fst snd mdns_started].
  rewrite <- app_assoc, manageConnections_mdns_in_order.
  unfold displayTick, watchdogCheckin.
  by destruct (to_ticks bits (lastTick s + 40) <? ticks_millis r),
    (WiFi_listening_again r), threading.
Qed.

Lemma loop_keeps_mdns_started gcc threading bits r s :
  mdns_started s = true →
  mdns_started (loop gcc threading bits r s).1 = true.
Proof.
  unfold loop, manageConnections. intros ->. simpl.
  by destruct (negb (WiFi_ready r) || WiFi_listening r).
Qed.

Lemma loops_cons gcc threading bits r rs s :
  loops gcc threading bits (r :: rs) s =
  ((loops gcc threading bits rs (loop gcc threading bits r s).1).1,
   (loop gcc threading bits r s).2 ++
   (loops gcc threading bits rs (loop gcc threading bits r s).1).2).
Proof. done. Qed.

(** X15. Over any number of passes of [loop()], the mDNS responder is driven
    in order: [begin] is called until it succeeds and never again, and
    [processQueries] only after it succeeded; once [mdns_started] is set it
    stays set. *)
Theorem loops_drive_mdns_in_order (gcc threading : bool) (bits : Z)
    (rs : list Readings) (s : AppState) :
  mdns_in_order (mdns_started s) (loops gcc threading bits rs s).2 = true ∧
  (mdns_started s = true →
   mdns_started (loops gcc threading bits rs s).1 = true).
Proof.
  revert s. induction rs as [|r rs IH]; intros s; [done|].
  rewrite loops_cons. cbn [fst snd]. rewrite loop_mdns_in_order.
  destruct (IH (loop gcc threading bits r s).1) as [Horder Hkeep].
  split; [done|].
  intros Hs. by apply Hkeep, loop_keeps_mdns_started.
Qed.

Lemma count_events_app P t1 t2 :
  count_events P (t1 ++ t2) = (count_events P t1 + count_events P t2)%nat.
Proof. unfold count_events. by rewrite List.filter_app, length_app. Qed.

Lemma count_events_cons P e t :
  count_events P (e :: t) = ((if P e then 1 else 0) + count_events P t)%nat.
Proof. unfold count_events. simpl. by destruct (P e). Qed.

Lemma count_events_drain P pending :
  (∀ z, P (client_read z) = false) → count_events P (drain pending) = 0%nat.
Proof.
  intros HP. unfold count_events.
  induction pending as [|x pending IH]; simpl; rewrite HP; [done|].
  destruct (x =? -1); [done|]. apply IH.
Qed.

Lemma manageConnections_counts gcc r started :
  let trace := (manageConnections gcc r started).2 in
  count_events is_update trace = 0%nat ∧
  count_events is_checkin trace = 0%nat ∧
  count_events is_hexCommunicate trace = 0%nat ∧
  count_events is_client_write trace = (if serves_client r then 1 else 0)%nat ∧
  count_events is_client_stop trace = (if serves_client r then 1 else 0)%nat.
Proof.
  unfold manageConnections, serves_client.
  destruct r as [ready listening connecting begin cl again now]; simpl.
  destruct ready, listening, connecting, gcc, started, cl as [pending|]; simpl;
    repeat (rewrite count_events_cons || rewrite count_events_app
            || rewrite count_events_drain by done);
    by repeat split.
Qed.

Lemma loop_counts gcc threading bits r s :
  let trace := (loop gcc threading bits r s).2 in
  count_events is_update trace = 1%nat ∧
  count_events is_checkin trace = (if threading then 1 else 0)%nat ∧
  count_events is_hexCommunicate trace =
    (if WiFi_listening_again r then 0 else 1)%nat ∧
  count_events is_client_write trace = (if serves_client r then 1 else 0)%nat ∧
  count_events is_client_stop trace = (if serves_client r then 1 else 0)%nat.
Proof.
  unfold loop. cbn [fst snd]. rewrite !count_events_app.
  destruct (manageConnections_counts gcc r (mdns_started s))
    as (-> & -> & -> & -> & ->).
  unfold displayTick, watchdogCheckin.
  destruct (to_ticks bits (lastTick s + 40) <? ticks_millis r),
    (WiFi_listening_again r), threading, (serves_client r);
    by repeat split.
Qed.

(** X16. Every pass of [loop()] updates the box exactly once and, where the
    platform has threading, checks in with the watchdog exactly once,
    whatever the network does; it communicates exactly in the passes whose
    second [WiFi.listening()] answers false; and each client found while the
    network is up is written to once and stopped once. *)
Theorem loops_event_counts (gcc threading : bool) (bits : Z)
    (rs : list Readings) (s : AppState) :
  let trace := (loops gcc threading bits rs s).2 in
  count_events is_update trace = length rs ∧
  count_events is_checkin trace = (if threading then length rs else 0%nat) ∧
  count_events is_hexCommunicate trace =
    length (List.filter (λ r, negb (WiFi_listening_again r)) rs) ∧
  count_events is_client_write trace = length (List.filter serves_client rs) ∧
  count_events is_client_stop trace = length (List.filter serves_client rs).
Proof.
  revert s. induction rs as [|r rs IH]; intros s.
  - by destruct threading.
  - rewrite loops_cons. cbn [fst snd]. rewrite !count_events_app.
    destruct (loop_counts gcc threading bits r s) as (-> & -> & -> & -> & ->).
    destruct (IH (loop gcc threading bits r s).1) as (-> & -> & -> & -> & ->).
    simpl. destruct threading, (WiFi_listening_again r), (serves_client r);
      by repeat split.
Qed.

Lemma manageConnections_connects gcc r started :
  let trace := (manageConnections gcc r started).2 in
  count_events is_WiFi_connect trace = (if needs_connect r then 1 else 0)%nat ∧
  count_events is_Particle_connect trace =
    (if needs_connect r && negb gcc then 1 else 0)%nat.
Proof.
  unfold manageConnections, needs_connect.
  destruct r as [ready listening connecting begin cl again now]; simpl.
  destruct ready, listening, connecting, gcc, started, cl as [pending|]; simpl;
    repeat (rewrite count_events_cons || rewrite count_events_app
            || rewrite count_events_drain by done);
    by repeat split.
Qed.

(** X17. Over any number of passes of [loop()], [WiFi.connect] is called
    exactly in the passes that find the network down (not ready, or
    listening) with no connection attempt under way, and never while one is;
    [Particle.connect] accompanies it except on the GCC platform, where it is
    never called. *)
Theorem loops_connect_when_down (gcc threading : bool) (bits : Z)
    (rs : list Readings) (s : AppState) :
  let trace := (loops gcc threading bits rs s).2 in
  count_events is_WiFi_connect trace = length (List.filter needs_connect rs) ∧
  count_events is_Particle_connect trace =
    (if gcc then 0%nat else length (List.filter needs_connect rs)).
Proof.
  revert s. induction rs as [|r rs IH]; intros s.
  - by destruct gcc.
  - rewrite loops_cons. cbn [fst snd]. rewrite !count_events_app.
    destruct (IH (loop gcc threading bits r s).1) as [-> ->].
    unfold loop. cbn [fst snd]. rewrite !count_events_app.
    destruct (manageConnections_connects gcc r (mdns_started s)) as [-> ->].
    unfold displayTick, watchdogCheckin. simpl.
    destruct (to_ticks bits (lastTick s + 40) <? ticks_millis r),
      (WiFi_listening_again r), threading, (needs_connect r), gcc;
      simpl; split; lia.
Qed.
